(** * memcache: an in-process key/value cache with per-entry expiration

    A shallow embedding of [memcache/cache.go] and the proofs of its
    specification.  The map [c.m] is a [gmap string Value]; every method of
    [*Cache] is a computation in a small state monad over the package state
    (the package variable [defaultSize] and the cache object).  The wall
    clock is an input of the methods that call [time.Now()].

    The model is sequential.  The [sync.RWMutex] has no field in [Cache]:
    a method that takes it reads and writes [c.m] only while it holds it and
    releases it on return ([defer]), so one method call is one step. *)

From Stdlib Require Import ZArith Lia.
From stdpp Require Import base gmap strings list fin_maps.

Local Open Scope Z_scope.

Module memcache.

(** ** Package [time]

    A [time.Time] is kept as its exact number of nanoseconds since the Unix
    epoch; Go's [Time] has a far wider range than an [int64] of nanoseconds.
    [Time.UnixNano] computes in [int64], so it wraps around outside the years
    1678..2262.  A [time.Duration] is an [int64] count of nanoseconds. *)

Definition Time : Type := Z.
Definition Duration : Type := Z.

Definition int64 (z : Z) : Z := (z + 2 ^ 63) mod 2 ^ 64 - 2 ^ 63.

Definition Add (t : Time) (d : Duration) : Time := t + d.
Definition UnixNano (t : Time) : Z := int64 t.

(** ** Errors: the two package-level [error] values.  A Go [error] result is
    [option error], [None] being the nil error. *)

Inductive error : Set := ErrKeyNotFound | ErrCacheIsOut.

(** The goroutine running [GC]: blocked on its timer, or returned. *)
Inductive goroutine : Set := Waiting | Exited.

Section Cache.

(** The dynamic values callers store.  An [interface{}] is nil ([None]) or
    holds one of them. *)
Context {T : Type}.

Definition any : Type := option T.

Record Value : Type := mkValue {
  Value_Value : any;
  CreatedAt : Time;
  Expiration : Z
}.

Record Cache : Type := mkCache {
  defaultExpiration : Duration;
  cleanupInterval : Duration;
  m : gmap string Value
}.

(** The package state: the variable [defaultSize] and the cache a method is
    called on. *)
Record State : Type := mkState {
  defaultSize : Z;
  cache : Cache
}.

(** ** The state monad of the methods *)

Definition M (A : Type) : Type := State → A * State.

Definition ret {A : Type} (a : A) : M A := λ s, (a, s).

Definition bind {A B : Type} (x : M A) (f : A → M B) : M B :=
  λ s, f (x s).1 (x s).2.

Notation "'let*' x ':=' c 'in' k" := (bind c (λ x, k))
  (at level 10, x name, c at level 100, k at level 200).
Notation "c ';;' k" := (bind c (λ _, k))
  (at level 100, k at level 200, right associativity).

(** Reads and writes of the fields. *)
Definition read_m : M (gmap string Value) := λ s, (m (cache s), s).

Definition write_m (mp : gmap string Value) : M unit :=
  λ s, (tt, mkState (defaultSize s)
              (mkCache (defaultExpiration (cache s)) (cleanupInterval (cache s)) mp)).

Definition read_defaultExpiration : M Duration :=
  λ s, (defaultExpiration (cache s), s).

Definition read_defaultSize : M Z := λ s, (defaultSize s, s).

(** [make(map[string]Value, size)]: the size is a capacity hint only. *)
Definition make_map (size : Z) : gmap string Value := ∅.

(** ** The methods *)

(** [Set], here [Set_] ([Set] is a sort of Rocq).  [now] is the reading of
    [time.Now()] taken for the expiration, [created] the one stored in
    [CreatedAt]. *)
Definition Set_ (now created : Time) (key : string) (value : any)
    (duration : Duration) : M unit :=
  let* dflt := read_defaultExpiration in
  let duration := if duration =? 0 then dflt else duration in
  let expiration := if duration >? 0 then UnixNano (Add now duration) else 0 in
  let* mp := read_m in
  write_m (<[key := mkValue value created expiration]> mp).

(** [Get].  [now] is the reading of [time.Now()], taken only for an entry
    whose [Expiration] is positive. *)
Definition Get (now : Time) (key : string) : M (any * option error) :=
  let* mp := read_m in
  match mp !! key with
  | None => ret (None, Some ErrKeyNotFound)
  | Some val =>
      if Expiration val >? 0 then
        if UnixNano now >? Expiration val then ret (None, Some ErrCacheIsOut)
        else ret (Value_Value val, None)
      else ret (Value_Value val, None)
  end.

(** [GetMulti].  The loop reads the clock once per key: [clock i] is the
    reading during the lookup of [keys[i]]. *)
Fixpoint GetMulti_loop (clock : nat → Time) (i : nat) (keys : list string)
    (rc : list any) : M (list any) :=
  match keys with
  | [] => ret rc
  | key :: keys' =>
      let* r := Get (clock i) key in
      GetMulti_loop clock (S i) keys' (rc ++ [r.1])
  end.

Definition GetMulti (clock : nat → Time) (keys : list string) : M (list any) :=
  GetMulti_loop clock 0%nat keys [].

Definition Delete (key : string) : M (option error) :=
  let* mp := read_m in
  match mp !! key with
  | None => ret (Some ErrKeyNotFound)
  | Some _ => write_m (delete key mp) ;; ret None
  end.

Definition IsExist (key : string) : M bool :=
  let* mp := read_m in
  match mp !! key with
  | None => ret false
  | Some _ => ret true
  end.

Definition Expire (now : Time) (key : string) : M (bool * option error) :=
  let* mp := read_m in
  match mp !! key with
  | None => ret (false, Some ErrKeyNotFound)
  | Some val =>
      if (UnixNano now >? Expiration val) && (Expiration val >? 0)
      then ret (true, None)
      else ret (false, None)
  end.

Definition FlushAll : M unit :=
  let* size := read_defaultSize in
  write_m (make_map size).

(** [expiredKeys].  The loop ranges over the map and reads the clock once per
    entry: [clock k] is the reading during the visit of key [k] (a map holds
    a key once, so a reading per key is a reading per iteration).
    [expiredKeys_range] is the loop over a given visiting order; Go leaves
    the order of a [range] over a map unspecified, the method is modelled on
    [map_to_list], and [clearItems_order] below shows the order does not
    reach the state. *)
Fixpoint expiredKeys_range (clock : string → Time)
    (entries : list (string * Value)) (keys : list string) : list string :=
  match entries with
  | [] => keys
  | (k, i) :: rest =>
      expiredKeys_range clock rest
        (if (UnixNano (clock k) >? Expiration i) && (Expiration i >? 0)
         then keys ++ [k] else keys)
  end.

Definition expiredKeys (clock : string → Time) : M (list string) :=
  let* mp := read_m in
  ret (expiredKeys_range clock (map_to_list mp) []).

Definition clearItems (keys : list string) : M unit :=
  let* mp := read_m in
  write_m (foldl (λ acc k, delete k acc) mp keys).

(** One turn of the loop of [GC], from the moment the timer fires. *)
Definition GC_iteration (clock : string → Time) : M goroutine :=
  let* mp := read_m in
  if (size mp =? 0)%nat then ret Exited
  else
    let* keys := expiredKeys clock in
    (if (length keys =? 0)%nat then ret tt else clearItems keys) ;;
    ret Waiting.

(** [GC] run on its own for the given timer firings, one clock per firing;
    [Waiting] when the firings run out before the loop returns. *)
Fixpoint GC (firings : list (string → Time)) : M goroutine :=
  match firings with
  | [] => ret Waiting
  | clock :: rest =>
      let* g := GC_iteration clock in
      match g with
      | Exited => ret Exited
      | Waiting => GC rest
      end
  end.

(** ** The process: the package state and the live [GC] goroutines, under
    the calls of the program and the firings of the timers. *)

Record Process : Type := mkProcess {
  mem : State;
  sweepers : nat
}.

(** [StartGC]: [go c.GC()]. *)
Definition StartGC (p : Process) : Process :=
  mkProcess (mem p) (S (sweepers p)).

(** [NewCache]: records [size] in [defaultSize], builds the cache and starts
    the sweep when the interval is positive. *)
Definition NewCache (size : Z) (expiration cleanupInterval : Duration) : Process :=
  let newMap := make_map size in
  let p := mkProcess (mkState size (mkCache expiration cleanupInterval newMap)) 0 in
  if cleanupInterval >? 0 then StartGC p else p.

Inductive event : Type :=
  | CallSet (now created : Time) (key : string) (value : any) (duration : Duration)
  | CallGet (now : Time) (key : string)
  | CallGetMulti (clock : nat → Time) (keys : list string)
  | CallDelete (key : string)
  | CallIsExist (key : string)
  | CallExpire (now : Time) (key : string)
  | CallFlushAll
  | CallStartGC
  | TimerFires (clock : string → Time).

Definition step (p : Process) (e : event) : Process :=
  match e with
  | CallSet now created key value duration =>
      mkProcess (Set_ now created key value duration (mem p)).2 (sweepers p)
  | CallGet now key => mkProcess (Get now key (mem p)).2 (sweepers p)
  | CallGetMulti clock keys => mkProcess (GetMulti clock keys (mem p)).2 (sweepers p)
  | CallDelete key => mkProcess (Delete key (mem p)).2 (sweepers p)
  | CallIsExist key => mkProcess (IsExist key (mem p)).2 (sweepers p)
  | CallExpire now key => mkProcess (Expire now key (mem p)).2 (sweepers p)
  | CallFlushAll => mkProcess (FlushAll (mem p)).2 (sweepers p)
  | CallStartGC => StartGC p
  | TimerFires clock =>
      match sweepers p with
      | O => p
      | S n =>
          let r := GC_iteration clock (mem p) in
          mkProcess r.2 (match r.1 with Exited => n | Waiting => S n end)
      end
  end.

Definition run (p : Process) (evs : list event) : Process := foldl step p evs.

(** The specification's expired entry, at a clock reading [now]: a positive
    [Expiration] that [now] is strictly past. *)
Definition expired (now : Time) (val : Value) : Prop :=
  Expiration val > 0 ∧ UnixNano now > Expiration val.

End Cache.

Arguments any T : clear implicits.
Arguments Value T : clear implicits.
Arguments Cache T : clear implicits.
Arguments State T : clear implicits.
Arguments M T A : clear implicits.
Arguments Process T : clear implicits.
Arguments event T : clear implicits.

#[global] Instance expired_dec {T : Type} (now : Time) (val : Value T) :
  Decision (expired now val).
Proof. unfold expired. apply _. Defined.

End memcache.

Import memcache.

(** * A concrete cache

    The scenario of the specification's tests: values are strings, an entry
    is stored with a ttl of 50ms and read 10ms and 60ms later. *)

Definition ms : Duration := 1000000.

(** 2023-11-14T22:13:20Z, in nanoseconds since the epoch. *)
Definition t0 : Time := 1700000000000000000.

Definition fresh_cache : State string := mem (NewCache 8 0 0).

(** One entry, [k], with a ttl of 50ms. *)
Definition one_entry : State string :=
  (Set_ t0 t0 "k" (Some "v") (50 * ms) fresh_cache).2.

(** Next to it an entry, [forever], stored with a negative ttl. *)
Definition two_entries : State string :=
  (Set_ t0 t0 "forever" (Some "w") (-1) one_entry).2.

Definition entry_k : Value string := mkValue (Some "v") t0 (t0 + 50 * ms).
Definition entry_forever : Value string := mkValue (Some "w") t0 0.

(** The claim C2 as the specification words it: any ttl at or below zero, on
    any cache. *)
Definition C2_as_stated : Prop :=
  ∀ (s : State string) (now created later : Time) (key : string)
    (value : any string) (ttl : Duration),
    ttl ≤ 0 → now ≤ later →
    (Get later key (Set_ now created key value ttl s).2).1 = (value, None).

(** The claim C3 as the specification words it: the ttl is the default
    exactly when zero is given, the stored expiry is the sum now + ttl for a
    positive ttl and zero otherwise, and the entry takes the place of any
    entry of the key. *)
Definition C3_as_stated : Prop :=
  ∀ (s : State string) (now created : Time) (key : string)
    (value : any string) (duration : Duration),
    ∃ ttl : Duration,
      (duration = 0 → ttl = defaultExpiration (cache s)) ∧
      (duration ≠ 0 → ttl = duration) ∧
      m (cache (Set_ now created key value duration s).2) !! key
        = Some (mkValue value created (if decide (ttl > 0) then now + ttl else 0)) ∧
      NoDup (map_to_list (m (cache (Set_ now created key value duration s).2))).*1 ∧
      (∀ k, k ≠ key →
         m (cache (Set_ now created key value duration s).2) !! k
           = m (cache s) !! k).

(** * Lemmas on the model *)

Section Lemmas.

Context {T : Type}.
Implicit Types (s : State T) (val : Value T) (mp : gmap string (Value T)).
Implicit Types (key k : string) (now : Time).

Lemma int64_exact (z : Z) : - 2 ^ 63 ≤ z < 2 ^ 63 → int64 z = z.
Proof.
  intros Hz. unfold int64.
  rewrite Z.mod_small by lia. lia.
Qed.

Lemma int64_range (z : Z) : - 2 ^ 63 ≤ int64 z < 2 ^ 63.
Proof.
  unfold int64.
  pose proof (Z.mod_pos_bound (z + 2 ^ 63) (2 ^ 64)). lia.
Qed.

Lemma expired_test now val :
  (UnixNano now >? Expiration val) && (Expiration val >? 0) = true ↔ expired now val.
Proof.
  unfold expired. rewrite andb_true_iff, !Z.gtb_lt. lia.
Qed.

Lemma expired_test_false now val :
  (UnixNano now >? Expiration val) && (Expiration val >? 0) = false ↔ ¬ expired now val.
Proof.
  rewrite <- expired_test. destruct (_ && _); split; congruence.
Qed.

(** [int64 z] is [z] moved by a multiple of 2^64. *)
Lemma int64_congruent (z : Z) : ∃ q : Z, int64 z = z - q * 2 ^ 64.
Proof.
  exists ((z + 2 ^ 63) / 2 ^ 64). unfold int64.
  rewrite Z.mod_eq by lia. lia.
Qed.

(** A positive ttl that takes [now] past the last [int64] nanosecond (the
    year 2262) wraps to a negative [UnixNano]. *)
Lemma UnixNano_Add_overflow now (d : Duration) :
  - 2 ^ 63 ≤ now < 2 ^ 63 → 0 < d < 2 ^ 63 → 2 ^ 63 ≤ now + d →
  UnixNano (Add now d) = now + d - 2 ^ 64 ∧ UnixNano (Add now d) < 0.
Proof.
  intros Hnow Hd Hover. unfold UnixNano, Add, int64.
  replace (now + d + 2 ^ 63) with ((now + d - 2 ^ 63) + 1 * 2 ^ 64) by lia.
  rewrite Z.mod_add by lia. rewrite Z.mod_small by lia. lia.
Qed.

(** *** The reads return the state they were given *)

Lemma Get_result now key s :
  Get now key s =
  (match m (cache s) !! key with
   | None => (None, Some ErrKeyNotFound)
   | Some val =>
       if decide (expired now val) then (None, Some ErrCacheIsOut)
       else (Value_Value val, None)
   end, s).
Proof.
  unfold Get, bind, read_m, ret; simpl.
  destruct (m (cache s) !! key) as [val|]; [|done].
  case_decide as He.
  - destruct He as [He1 He2].
    apply Z.gt_lt, Z.gtb_lt in He1, He2. by rewrite He1, He2.
  - destruct (Z.gtb_spec (Expiration val) 0) as [H1|H1]; [|done].
    destruct (Z.gtb_spec (UnixNano now) (Expiration val)) as [H2|H2]; [|done].
    exfalso. apply He. unfold expired. lia.
Qed.

Lemma Get_state now key s : (Get now key s).2 = s.
Proof. by rewrite Get_result. Qed.

Lemma IsExist_result key s :
  IsExist key s = (bool_decide (is_Some (m (cache s) !! key)), s).
Proof.
  unfold IsExist, bind, read_m, ret; simpl.
  by destruct (m (cache s) !! key) as [val|].
Qed.

Lemma Expire_result now key s :
  Expire now key s =
  (match m (cache s) !! key with
   | None => (false, Some ErrKeyNotFound)
   | Some val => (bool_decide (expired now val), None)
   end, s).
Proof.
  unfold Expire, bind, read_m, ret; simpl.
  destruct (m (cache s) !! key) as [val|]; [|done].
  destruct (_ && _) eqn:E.
  - apply expired_test in E. by rewrite bool_decide_eq_true_2.
  - apply expired_test_false in E. by rewrite bool_decide_eq_false_2.
Qed.

Lemma GetMulti_loop_result (clock : nat → Time) keys : ∀ (i : nat) (rc : list (any T)) s,
  GetMulti_loop clock i keys rc s =
  (rc ++ imap (λ j key, (Get (clock (i + j)%nat) key s).1.1) keys, s).
Proof.
  induction keys as [|key keys IH]; intros i rc s; simpl.
  - unfold ret. by rewrite app_nil_r.
  - unfold bind. rewrite Get_state, IH, <- app_assoc. simpl.
    rewrite Nat.add_0_r. do 3 f_equal.
    apply imap_ext. intros j k _. simpl. by rewrite Nat.add_succ_r.
Qed.

Lemma GetMulti_result (clock : nat → Time) (keys : list string) s :
  GetMulti clock keys s = (imap (λ j key, (Get (clock j) key s).1.1) keys, s).
Proof. unfold GetMulti. by rewrite GetMulti_loop_result. Qed.

(** *** The sweep *)

Lemma expiredKeys_range_result (clock : string → Time)
    (entries : list (string * Value T)) : ∀ keys : list string,
  expiredKeys_range clock entries keys =
  keys ++ (filter (λ kv, expired (clock kv.1) kv.2) entries).*1.
Proof.
  induction entries as [|[k i] rest IH]; intros keys; simpl.
  - by rewrite app_nil_r.
  - rewrite IH, filter_cons. simpl.
    destruct (_ && _) eqn:E.
    + apply expired_test in E. rewrite decide_True by done.
      by rewrite <- app_assoc.
    + apply expired_test_false in E. by rewrite decide_False.
Qed.

Lemma elem_of_expiredKeys_range (clock : string → Time)
    (order : list (string * Value T)) mp k :
  order ≡ₚ map_to_list mp →
  k ∈ expiredKeys_range clock order [] ↔
  ∃ val, mp !! k = Some val ∧ expired (clock k) val.
Proof.
  intros Hperm. rewrite expiredKeys_range_result. simpl.
  rewrite list_elem_of_fmap. split.
  - intros [[k' val] [-> [He Hin]%list_elem_of_filter]]. simpl in *.
    rewrite Hperm in Hin. apply elem_of_map_to_list in Hin. eauto.
  - intros [val [Hk He]]. exists (k, val). split; [done|].
    apply list_elem_of_filter. split; [done|].
    rewrite Hperm. by apply elem_of_map_to_list.
Qed.

Lemma clearItems_lookup (keys : list string) : ∀ mp k,
  foldl (λ acc k', delete k' acc) mp keys !! k =
  if decide (k ∈ keys) then None else mp !! k.
Proof.
  induction keys as [|k0 keys IH]; intros mp k; simpl.
  - by destruct (decide (k ∈ [])) as [?%elem_of_nil|].
  - rewrite IH. destruct (decide (k ∈ keys)) as [Hin|Hnin].
    + rewrite decide_True; [done|]. by apply elem_of_cons; right.
    + destruct (decide (k = k0)) as [->|Hne].
      * rewrite lookup_delete_eq, decide_True; [done|]. apply elem_of_cons; by left.
      * rewrite lookup_delete_ne by done. rewrite decide_False; [done|].
        intros [?|?]%elem_of_cons; done.
Qed.

(** The order in which [expiredKeys] collected the keys does not reach the
    map [clearItems] leaves. *)
Lemma clearItems_order (keys1 keys2 : list string) mp :
  keys1 ≡ₚ keys2 →
  foldl (λ acc k', delete k' acc) mp keys1 = foldl (λ acc k', delete k' acc) mp keys2.
Proof.
  intros Hperm. apply map_eq. intros k. rewrite !clearItems_lookup.
  destruct (decide (k ∈ keys1)) as [H1|H1]; rewrite Hperm in H1.
  - by rewrite decide_True.
  - by rewrite decide_False.
Qed.

Lemma expiredKeys_order (clock : string → Time)
    (order1 order2 : list (string * Value T)) :
  order1 ≡ₚ order2 →
  expiredKeys_range clock order1 [] ≡ₚ expiredKeys_range clock order2 [].
Proof.
  intros Hperm. rewrite !expiredKeys_range_result. simpl.
  by rewrite Hperm.
Qed.

(** The map one turn of the loop leaves, whatever the test on [len(keys)]. *)
Lemma GC_iteration_empty (clock : string → Time) s :
  m (cache s) = ∅ → GC_iteration clock s = (Exited, s).
Proof.
  intros He. unfold GC_iteration, bind, read_m, ret; simpl.
  by rewrite He, map_size_empty.
Qed.

Lemma GC_iteration_nonempty (clock : string → Time) s :
  m (cache s) ≠ ∅ →
  (GC_iteration clock s).1 = Waiting ∧
  m (cache (GC_iteration clock s).2) =
    foldl (λ acc k', delete k' acc) (m (cache s))
      (expiredKeys_range clock (map_to_list (m (cache s))) []) ∧
  defaultExpiration (cache (GC_iteration clock s).2) = defaultExpiration (cache s) ∧
  cleanupInterval (cache (GC_iteration clock s).2) = cleanupInterval (cache s) ∧
  defaultSize (GC_iteration clock s).2 = defaultSize s.
Proof.
  intros Hne. apply map_size_non_empty_iff in Hne.
  unfold GC_iteration, bind, read_m, ret; simpl.
  destruct (Nat.eqb_spec (size (m (cache s))) 0) as [?|_]; [done|].
  unfold expiredKeys, bind, read_m, ret; simpl.
  destruct (expiredKeys_range clock (map_to_list (m (cache s))) []) as [|k0 keys];
    simpl; done.
Qed.

Lemma GC_iteration_lookup (clock : string → Time) s k :
  m (cache (GC_iteration clock s).2) !! k =
  match m (cache s) !! k with
  | Some val => if decide (expired (clock k) val) then None else Some val
  | None => None
  end.
Proof.
  destruct (decide (m (cache s) = ∅)) as [He|Hne].
  - rewrite GC_iteration_empty by done. simpl. by rewrite He, lookup_empty.
  - destruct (GC_iteration_nonempty clock s Hne) as (_ & -> & _).
    rewrite clearItems_lookup.
    destruct (m (cache s) !! k) as [val|] eqn:Hk.
    + destruct (decide (expired (clock k) val)) as [He|He].
      * rewrite decide_True; [done|].
        apply (elem_of_expiredKeys_range clock _ (m (cache s))); eauto.
      * rewrite decide_False; [done|].
        intros [val' [Hk' He']]%(elem_of_expiredKeys_range clock _ (m (cache s)));
          [|done]. congruence.
    + by destruct (decide _).
Qed.

Lemma GC_iteration_config (clock : string → Time) s :
  defaultExpiration (cache (GC_iteration clock s).2) = defaultExpiration (cache s) ∧
  cleanupInterval (cache (GC_iteration clock s).2) = cleanupInterval (cache s) ∧
  defaultSize (GC_iteration clock s).2 = defaultSize s.
Proof.
  destruct (decide (m (cache s) = ∅)) as [He|Hne].
  - by rewrite GC_iteration_empty.
  - by destruct (GC_iteration_nonempty clock s Hne) as (_ & _ & ? & ? & ?).
Qed.

(** [GC] on its own: an entry that is not expired at any firing stays. *)
Lemma GC_unfold (clock : string → Time) (rest : list (string → Time)) s :
  GC (clock :: rest) s =
  match (GC_iteration clock s).1 with
  | Exited => (Exited, (GC_iteration clock s).2)
  | Waiting => GC rest (GC_iteration clock s).2
  end.
Proof. simpl. unfold bind. by destruct (GC_iteration clock s).1. Qed.

Lemma GC_keeps_unexpiring (firings : list (string → Time)) : ∀ s k val,
  m (cache s) !! k = Some val → Expiration val ≤ 0 →
  m (cache (GC firings s).2) !! k = Some val.
Proof.
  induction firings as [|clock rest IH]; intros s k val Hk Hexp; [done|].
  assert (Hstep : m (cache (GC_iteration clock s).2) !! k = Some val).
  { rewrite GC_iteration_lookup, Hk. rewrite decide_False; [done|].
    unfold expired. lia. }
  rewrite GC_unfold. destruct (GC_iteration clock s).1; [|done].
  by apply IH.
Qed.

(** *** The process *)

Lemma step_no_sweeper (p : Process T) (e : event T) :
  e ≠ CallStartGC → sweepers p = 0%nat →
  sweepers (step p e) = 0%nat ∧
  (∀ clock, e = TimerFires clock → step p e = p).
Proof.
  intros He Hp. destruct e; simpl; try done.
  rewrite Hp. split; [done|]. done.
Qed.

Lemma run_no_sweeper (evs : list (event T)) : ∀ p : Process T,
  CallStartGC ∉ evs → sweepers p = 0%nat → sweepers (run p evs) = 0%nat.
Proof.
  induction evs as [|e evs IH]; intros p Hevs Hp; [done|].
  apply not_elem_of_cons in Hevs as [He Hevs]. simpl.
  apply IH; [done|]. by apply step_no_sweeper.
Qed.

Lemma run_timers_idle (firings : list (string → Time)) (p : Process T) :
  sweepers p = 0%nat → run p (TimerFires <$> firings) = p.
Proof.
  intros Hp. induction firings as [|clock rest IH]; [done|].
  simpl. by rewrite Hp.
Qed.

(** The timer firings of a process with one sweeper and no caller are the
    loop of [GC]. *)
Lemma run_timers_GC (firings : list (string → Time)) : ∀ s,
  mem (run (mkProcess s 1) (TimerFires <$> firings)) = (GC firings s).2.
Proof.
  induction firings as [|clock rest IH]; intros s; [done|].
  rewrite GC_unfold. simpl.
  destruct (GC_iteration clock s) as [g s'] eqn:E. simpl.
  destruct g; [by rewrite IH|].
  fold (run (mkProcess s' 0) (TimerFires <$> rest)).
  by rewrite run_timers_idle.
Qed.

(** [NewCache] starts with an empty map, and with one sweeper exactly when
    the interval is positive. *)
Lemma NewCache_result (size : Z) (expiration interval : Duration) :
  m (cache (mem (@NewCache T size expiration interval))) = ∅ ∧
  defaultExpiration (cache (mem (@NewCache T size expiration interval))) = expiration ∧
  cleanupInterval (cache (mem (@NewCache T size expiration interval))) = interval ∧
  sweepers (@NewCache T size expiration interval) = if decide (interval > 0) then 1%nat else 0%nat.
Proof.
  unfold NewCache. destruct (Z.gtb_spec interval 0).
  - rewrite decide_True by lia. done.
  - rewrite decide_False by lia. done.
Qed.

End Lemmas.

(** * The specification, claim by claim *)

Section Specification.

Context {T : Type}.
Implicit Types (s : State T) (val : Value T) (value : any T).
Implicit Types (key k : string) (now created later : Time).

(** C1.  [Get] on an absent key returns ErrKeyNotFound.  On a key whose entry
    is expired at the current time (positive [Expiration], the clock past it)
    it returns ErrCacheIsOut and leaves the state as it was: the entry is
    still in the map and [IsExist] right after still answers true.  On a
    present, fresh entry it returns the stored value and a nil error. *)
Theorem C1_Get_contract s now key :
  (m (cache s) !! key = None →
     Get now key s = ((None, Some ErrKeyNotFound), s)) ∧
  (∀ val, m (cache s) !! key = Some val → expired now val →
     Get now key s = ((None, Some ErrCacheIsOut), s) ∧
     m (cache (Get now key s).2) !! key = Some val ∧
     (IsExist key (Get now key s).2).1 = true) ∧
  (∀ val, m (cache s) !! key = Some val → ¬ expired now val →
     Get now key s = ((Value_Value val, None), s)).
Proof.
  rewrite Get_result. split; [|split].
  - by intros ->.
  - intros val Hval Hstale. rewrite Hval, decide_True by done. simpl.
    split; [done|]. split; [done|].
    rewrite IsExist_result. simpl. by rewrite Hval.
  - intros val Hval Hfresh. by rewrite Hval, decide_False.
Qed.

(** C6.  [Expire] (the specification's IsExpired) returns ErrKeyNotFound on
    an absent key; on a present key it returns a nil error and answers true
    exactly when the entry's [Expiration] is strictly positive and the
    current time is strictly past it. *)
Theorem C6_Expire_contract s now key :
  (m (cache s) !! key = None →
     (Expire now key s).1 = (false, Some ErrKeyNotFound)) ∧
  (∀ val, m (cache s) !! key = Some val →
     ∃ b, (Expire now key s).1 = (b, None) ∧
          (b = true ↔ Expiration val > 0 ∧ UnixNano now > Expiration val)).
Proof.
  rewrite Expire_result. split.
  - by intros ->.
  - intros val ->. exists (bool_decide (expired now val)). split; [done|].
    apply bool_decide_eq_true.
Qed.

(** C8.  [Delete] on a present key removes the entry and returns a nil
    error: afterwards [IsExist] is false and [Get] returns ErrKeyNotFound.
    On an absent key it returns ErrKeyNotFound and the state is the one it
    was given.  The entries of all other keys, and the configuration, are
    unchanged in both cases. *)
Theorem C8_Delete_contract s key :
  (∀ val, m (cache s) !! key = Some val →
     (Delete key s).1 = None ∧
     m (cache (Delete key s).2) !! key = None ∧
     (IsExist key (Delete key s).2).1 = false ∧
     (∀ now, (Get now key (Delete key s).2).1 = (None, Some ErrKeyNotFound))) ∧
  (m (cache s) !! key = None →
     Delete key s = (Some ErrKeyNotFound, s)) ∧
  (∀ k, k ≠ key → m (cache (Delete key s).2) !! k = m (cache s) !! k) ∧
  defaultExpiration (cache (Delete key s).2) = defaultExpiration (cache s) ∧
  cleanupInterval (cache (Delete key s).2) = cleanupInterval (cache s).
Proof.
  unfold Delete, bind, read_m, write_m, ret; simpl.
  destruct (m (cache s) !! key) as [val0|] eqn:Hkey; simpl.
  - split; [|split; [done|split; [|done]]].
    + intros val _. split; [done|]. split; [apply lookup_delete_eq|].
      split.
      * rewrite IsExist_result. simpl. by rewrite lookup_delete_eq.
      * intros now. rewrite Get_result. simpl. by rewrite lookup_delete_eq.
    + intros k Hk. by rewrite lookup_delete_ne.
  - done.
Qed.

(** C9.  After [FlushAll] the map holds no entry: for every key, and so for
    every key a [Set] inserted before, [IsExist] answers false and [Get]
    returns ErrKeyNotFound; [defaultExpiration] and [cleanupInterval] are
    the ones the cache had. *)
Theorem C9_FlushAll_discards_all s :
  (∀ k, (IsExist k (FlushAll s).2).1 = false) ∧
  (∀ k now, (Get now k (FlushAll s).2).1 = (None, Some ErrKeyNotFound)) ∧
  (∀ k now created value (duration : Duration),
     (IsExist k (FlushAll (Set_ now created k value duration s).2).2).1 = false) ∧
  defaultExpiration (cache (FlushAll s).2) = defaultExpiration (cache s) ∧
  cleanupInterval (cache (FlushAll s).2) = cleanupInterval (cache s).
Proof.
  assert (Hempty : ∀ s', m (cache (FlushAll s').2) = ∅) by done.
  split; [|split; [|split; [|done]]].
  - intros k. by rewrite IsExist_result, Hempty, lookup_empty.
  - intros k now. by rewrite Get_result, Hempty, lookup_empty.
  - intros k now created value duration.
    by rewrite IsExist_result, Hempty, lookup_empty.
Qed.

(** C10.  The four reads, [Get], [GetMulti], [IsExist] and [Expire], return
    the state they were given, on success and on error alike: every stored
    entry, with its value, [CreatedAt] and [Expiration], and the
    configuration fields are the same after the call as before. *)
Theorem C10_reads_leave_state s now key (clock : nat → Time) (keys : list string) :
  (Get now key s).2 = s ∧
  (GetMulti clock keys s).2 = s ∧
  (IsExist key s).2 = s ∧
  (Expire now key s).2 = s.
Proof.
  by rewrite Get_result, GetMulti_result, IsExist_result, Expire_result.
Qed.

(** C2, amended.  For a ttl strictly below zero, and for a zero ttl on a
    cache whose [defaultExpiration] is zero or negative, [Set] followed by
    [Get] on the key returns the value and a nil error whatever the clock
    reads at the [Get], also after any number of turns of the sweep in
    between.  (A zero ttl takes the cache's [defaultExpiration]; when that
    is positive the entry expires.) *)
Theorem C2_Set_without_ttl_never_expires s now created later key value
    (ttl : Duration) (firings : list (string → Time)) :
  ttl < 0 ∨ (ttl = 0 ∧ defaultExpiration (cache s) ≤ 0) →
  (Get later key (Set_ now created key value ttl s).2).1 = (value, None) ∧
  (Get later key (GC firings (Set_ now created key value ttl s).2).2).1
    = (value, None).
Proof.
  intros Httl.
  set (s' := (Set_ now created key value ttl s).2).
  assert (Hkey : m (cache s') !! key = Some (mkValue value created 0)).
  { unfold s', Set_, bind, read_defaultExpiration, read_m, write_m; simpl.
    rewrite lookup_insert_eq. do 2 f_equal.
    destruct (Z.eqb_spec ttl 0) as [Hz|Hz].
    - destruct (Z.gtb_spec (defaultExpiration (cache s)) 0); [lia|done].
    - destruct (Z.gtb_spec ttl 0); [lia|done]. }
  assert (Hfresh : ∀ t, ¬ expired t (mkValue value created 0)).
  { intros t [H0 _]. simpl in H0. lia. }
  split.
  - rewrite Get_result, Hkey. by rewrite decide_False.
  - rewrite Get_result.
    rewrite (GC_keeps_unexpiring firings s' key _ Hkey) by done.
    by rewrite decide_False.
Qed.

(** C3, amended.  [Set] takes the cache's [defaultExpiration] for the ttl
    exactly when the ttl it was given is zero.  With that ttl strictly
    positive, the stored [Expiration] is the sum now + ttl as [int64]: a
    value of the [int64] range that differs from the sum by a multiple of
    2^64.  It is the sum itself whenever the sum is in the range; for a
    clock reading in the range and a sum past it, it is the sum less 2^64,
    a negative number (an entry that never expires).  With the ttl zero or
    negative it is zero (never expires).  The new entry takes the place of
    any entry the key had: the map holds one entry for the key, the new one,
    no key twice, and every other key as before. *)
Theorem C3_Set_contract s now created key value (duration : Duration) :
  ∃ (ttl : Duration) (expiration : Z),
    (duration = 0 → ttl = defaultExpiration (cache s)) ∧
    (duration ≠ 0 → ttl = duration) ∧
    (ttl > 0 →
       - 2 ^ 63 ≤ expiration < 2 ^ 63 ∧
       ∃ q : Z, expiration = now + ttl - q * 2 ^ 64) ∧
    (ttl > 0 → - 2 ^ 63 ≤ now + ttl < 2 ^ 63 → expiration = now + ttl) ∧
    (ttl > 0 → - 2 ^ 63 ≤ now < 2 ^ 63 → ttl < 2 ^ 63 → 2 ^ 63 ≤ now + ttl →
       expiration = now + ttl - 2 ^ 64 ∧ expiration < 0) ∧
    (ttl ≤ 0 → expiration = 0) ∧
    m (cache (Set_ now created key value duration s).2) !! key
      = Some (mkValue value created expiration) ∧
    (∀ val, (key, val) ∈ map_to_list (m (cache (Set_ now created key value duration s).2)) →
       val = mkValue value created expiration) ∧
    NoDup (map_to_list (m (cache (Set_ now created key value duration s).2))).*1 ∧
    (∀ k, k ≠ key →
       m (cache (Set_ now created key value duration s).2) !! k = m (cache s) !! k) ∧
    defaultExpiration (cache (Set_ now created key value duration s).2)
      = defaultExpiration (cache s) ∧
    cleanupInterval (cache (Set_ now created key value duration s).2)
      = cleanupInterval (cache s).
Proof.
  exists (if decide (duration = 0) then defaultExpiration (cache s) else duration).
  set (ttl := if decide (duration = 0) then _ else _).
  exists (if decide (ttl > 0) then UnixNano (Add now ttl) else 0).
  assert (Hkey : m (cache (Set_ now created key value duration s).2) !! key
      = Some (mkValue value created
                (if decide (ttl > 0) then UnixNano (Add now ttl) else 0))).
  { unfold Set_, bind, read_defaultExpiration, read_m, write_m; simpl.
    rewrite lookup_insert_eq. do 2 f_equal. unfold ttl.
    destruct (decide (duration = 0)) as [Hz|Hz].
    - rewrite Hz. simpl.
      destruct (Z.gtb_spec (defaultExpiration (cache s)) 0).
      + by rewrite decide_True by lia.
      + by rewrite decide_False by lia.
    - rewrite (proj2 (Z.eqb_neq _ _) Hz).
      destruct (Z.gtb_spec duration 0).
      + by rewrite decide_True by lia.
      + by rewrite decide_False by lia. }
  split; [intros Hz; unfold ttl; by rewrite decide_True|].
  split; [intros Hz; unfold ttl; by rewrite decide_False|].
  split.
  { intros Hpos. rewrite decide_True by done. unfold UnixNano, Add.
    split; [apply int64_range | apply int64_congruent]. }
  split.
  { intros Hpos Hfit. rewrite decide_True by done.
    unfold UnixNano, Add. by apply int64_exact. }
  split.
  { intros Hpos Hnow Hlt Hover. rewrite decide_True by done.
    apply UnixNano_Add_overflow; lia. }
  split; [intros Hneg; by rewrite decide_False by lia|].
  split; [done|].
  split.
  { intros val Hin%elem_of_map_to_list. congruence. }
  split; [apply NoDup_fst_map_to_list|].
  split; [|done].
  intros k Hk. unfold Set_, bind, read_defaultExpiration, read_m, write_m; simpl.
  by rewrite lookup_insert_ne.
Qed.

(** C4.  An entry whose [Expiration] is zero or negative is never reported
    expired, whatever the clock reads: [Get] returns its value and a nil
    error, [Expire] answers false, the scan of [expiredKeys] does not select
    its key, in any visiting order of the map, and a turn of the sweep
    leaves the entry in the map. *)
Theorem C4_nonpositive_Expiration_never_expired s key val now
    (clock : string → Time) :
  m (cache s) !! key = Some val → Expiration val ≤ 0 →
  (Get now key s).1 = (Value_Value val, None) ∧
  (Expire now key s).1 = (false, None) ∧
  (key ∉ (expiredKeys clock s).1) ∧
  (∀ order, order ≡ₚ map_to_list (m (cache s)) →
     key ∉ expiredKeys_range clock order []) ∧
  m (cache (GC_iteration clock s).2) !! key = Some val.
Proof.
  intros Hkey Hexp.
  assert (Hfresh : ∀ t, ¬ expired t val) by (intros t [H0 _]; lia).
  assert (Hscan : ∀ order, order ≡ₚ map_to_list (m (cache s)) →
     key ∉ expiredKeys_range clock order []).
  { intros order Hperm [val' [Hkey' He]]%(elem_of_expiredKeys_range _ _ (m (cache s)));
      [|done].
    rewrite Hkey in Hkey'. injection Hkey' as <-. by apply (Hfresh (clock key)). }
  split; [by rewrite Get_result, Hkey, decide_False|].
  split; [by rewrite Expire_result, Hkey, bool_decide_eq_false_2|].
  split; [by apply Hscan|].
  split; [done|].
  by rewrite GC_iteration_lookup, Hkey, decide_False.
Qed.

(** C5.  One turn of the sweep, as a step on the state, with [clock k] the
    reading taken when the scan visits key [k].  On an empty map the task
    returns, the state untouched, whatever firings were still to come; in a
    process whose only sweeper it was, no sweeper is left and, as long as
    nothing calls [StartGC], no later timer firing changes anything.  On a
    map with entries the task keeps running and the step removes exactly the
    keys whose entries were expired at the scan; every other entry and the
    configuration are as before. *)
Theorem C5_sweep_step s (clock : string → Time) :
  (m (cache s) = ∅ →
     GC_iteration clock s = (Exited, s) ∧
     (∀ rest, GC (clock :: rest) s = (Exited, s)) ∧
     step (mkProcess s 1) (TimerFires clock) = mkProcess s 0 ∧
     (∀ evs clock', CallStartGC ∉ evs →
        step (run (mkProcess s 0) evs) (TimerFires clock')
        = run (mkProcess s 0) evs)) ∧
  (m (cache s) ≠ ∅ →
     (GC_iteration clock s).1 = Waiting ∧
     step (mkProcess s 1) (TimerFires clock)
       = mkProcess (GC_iteration clock s).2 1 ∧
     (∀ k val, m (cache s) !! k = Some val → expired (clock k) val →
        m (cache (GC_iteration clock s).2) !! k = None) ∧
     (∀ k val, m (cache s) !! k = Some val → ¬ expired (clock k) val →
        m (cache (GC_iteration clock s).2) !! k = Some val) ∧
     (∀ k, m (cache s) !! k = None →
        m (cache (GC_iteration clock s).2) !! k = None) ∧
     defaultExpiration (cache (GC_iteration clock s).2) = defaultExpiration (cache s) ∧
     cleanupInterval (cache (GC_iteration clock s).2) = cleanupInterval (cache s)).
Proof.
  split.
  - intros Hempty.
    pose proof (GC_iteration_empty clock s Hempty) as Hit.
    split; [done|].
    split; [intros rest; by rewrite GC_unfold, Hit|].
    split; [simpl; by rewrite Hit|].
    intros evs clock' Hevs.
    pose proof (run_no_sweeper evs (mkProcess s 0) Hevs eq_refl) as Hnone.
    simpl. by rewrite Hnone.
  - intros Hne.
    destruct (GC_iteration_nonempty clock s Hne) as (Hw & _ & Hd & Hc & _).
    split; [done|].
    split; [simpl; by rewrite Hw|].
    split; [intros k val Hk He; by rewrite GC_iteration_lookup, Hk, decide_True|].
    split; [intros k val Hk He; by rewrite GC_iteration_lookup, Hk, decide_False|].
    split; [intros k Hk; by rewrite GC_iteration_lookup, Hk|].
    done.
Qed.

(** C7.  [GetMulti] returns a list as long as its input.  The element at
    position [i] is the value component of [Get] on [keys[i]], the error
    dropped: the stored value when the key is present and fresh at the
    reading [clock i] of its lookup, nil when the key is absent or expired.
    The result carries no error. *)
Theorem C7_GetMulti_contract s (clock : nat → Time) (keys : list string) :
  length (GetMulti clock keys s).1 = length keys ∧
  (∀ (i : nat) key, keys !! i = Some key →
     (GetMulti clock keys s).1 !! i = Some (Get (clock i) key s).1.1 ∧
     (m (cache s) !! key = None →
        (GetMulti clock keys s).1 !! i = Some None) ∧
     (∀ val, m (cache s) !! key = Some val → expired (clock i) val →
        (GetMulti clock keys s).1 !! i = Some None) ∧
     (∀ val, m (cache s) !! key = Some val → ¬ expired (clock i) val →
        (GetMulti clock keys s).1 !! i = Some (Value_Value val))).
Proof.
  rewrite GetMulti_result. cbn [fst].
  split; [apply length_imap|].
  intros i key Hi.
  assert (Hget : (imap (λ j key0, (Get (clock j) key0 s).1.1) keys : list (any T)) !! i
                 = Some (Get (clock i) key s).1.1).
  { by rewrite list_lookup_imap, Hi. }
  unfold any in *. rewrite Hget.
  split; [done|].
  rewrite Get_result. cbn [fst].
  split; [by intros ->|].
  split; intros val -> He.
  - by rewrite decide_True.
  - by rewrite decide_False.
Qed.

End Specification.

(** * The specification on the concrete cache *)

Lemma C1_Get_contract_witness :
  Get t0 "absent" two_entries = ((None, Some ErrKeyNotFound), two_entries) ∧
  (Get (t0 + 60 * ms) "k" two_entries = ((None, Some ErrCacheIsOut), two_entries) ∧
   m (cache (Get (t0 + 60 * ms) "k" two_entries).2) !! "k" = Some entry_k ∧
   (IsExist "k" (Get (t0 + 60 * ms) "k" two_entries).2).1 = true) ∧
  Get (t0 + 10 * ms) "k" two_entries = ((Some "v", None), two_entries).
Proof.
  split; [|split].
  - apply (C1_Get_contract two_entries t0 "absent"). reflexivity.
  - apply (C1_Get_contract two_entries (t0 + 60 * ms) "k").
    + reflexivity.
    + split; reflexivity.
  - apply (proj2 (proj2 (C1_Get_contract two_entries (t0 + 10 * ms) "k")) entry_k).
    + reflexivity.
    + intros [_ H]. vm_compute in H. discriminate H.
Defined.

(** On a cache with a default of 50ms, an entry stored with the zero ttl is
    out of date 60ms later. *)
Lemma C2_counterexample : ¬ C2_as_stated.
Proof.
  intros Hclaim.
  specialize (Hclaim (mem (NewCache 8 (50 * ms) 0)) t0 t0 (t0 + 60 * ms) "k"
                (Some "v") 0).
  assert (Hcode :
    (Get (t0 + 60 * ms) "k"
       (Set_ t0 t0 "k" (Some "v") 0 (mem (NewCache 8 (50 * ms) 0))).2).1
    = (None, Some ErrCacheIsOut)) by reflexivity.
  rewrite Hcode in Hclaim.
  assert (Habs : (None, Some ErrCacheIsOut) = (Some "v", @None error)).
  { apply Hclaim; vm_compute; discriminate. }
  discriminate Habs.
Qed.

Lemma C2_Set_without_ttl_never_expires_witness :
  ((Get (t0 + 60 * ms) "forever" (Set_ t0 t0 "forever" (Some "w") (-1) one_entry).2).1
     = (Some "w", None) ∧
   (Get (t0 + 60 * ms) "forever"
      (GC [λ _, t0 + 30 * ms; λ _, t0 + 60 * ms]
         (Set_ t0 t0 "forever" (Some "w") (-1) one_entry).2).2).1
     = (Some "w", None)) ∧
  (Get (t0 + 60 * ms) "k" (Set_ t0 t0 "k" (Some "v") 0 fresh_cache).2).1
     = (Some "v", None).
Proof.
  split.
  - apply (C2_Set_without_ttl_never_expires one_entry t0 t0 (t0 + 60 * ms)
             "forever" (Some "w") (-1) [λ _, t0 + 30 * ms; λ _, t0 + 60 * ms]).
    left. reflexivity.
  - apply (C2_Set_without_ttl_never_expires fresh_cache t0 t0 (t0 + 60 * ms)
             "k" (Some "v") 0 []).
    right. split; [reflexivity | vm_compute; discriminate].
Defined.

(** At the clock reading [t0], the largest ttl, 2^63 - 1 nanoseconds, takes
    the sum past [int64]: [Set] stores a negative expiry, not the sum. *)
Lemma C3_counterexample : ¬ C3_as_stated.
Proof.
  intros Hclaim.
  destruct (Hclaim fresh_cache t0 t0 "k" (Some "v") (2 ^ 63 - 1))
    as (ttl & _ & Hgiven & Hkey & _).
  assert (Httl : ttl = 2 ^ 63 - 1) by (apply Hgiven; vm_compute; discriminate).
  subst ttl.
  assert (Hcode :
    m (cache (Set_ t0 t0 "k" (Some "v") (2 ^ 63 - 1) fresh_cache).2) !! "k"
    = Some (mkValue (Some "v") t0 (-7523372036854775809))) by reflexivity.
  rewrite Hcode in Hkey. vm_compute in Hkey. discriminate Hkey.
Qed.

Lemma C3_Set_contract_witness :
  m (cache (Set_ t0 t0 "k" (Some "v") (50 * ms) fresh_cache).2) !! "k"
    = Some (mkValue (Some "v") t0 (t0 + 50 * ms)) ∧
  m (cache (Set_ t0 t0 "k" (Some "v") (2 ^ 63 - 1) fresh_cache).2) !! "k"
    = Some (mkValue (Some "v") t0 (t0 + (2 ^ 63 - 1) - 2 ^ 64)) ∧
  m (cache (Set_ t0 t0 "k" (Some "v") 0 fresh_cache).2) !! "k"
    = Some (mkValue (Some "v") t0 0).
Proof.
  split; [|split].
  - destruct (C3_Set_contract fresh_cache t0 t0 "k" (Some "v") (50 * ms))
      as (ttl & expiration & _ & Hgiven & _ & Hsum & _ & _ & Hkey & _).
    rewrite Hkey. f_equal. f_equal.
    assert (Httl : ttl = 50 * ms) by (apply Hgiven; vm_compute; discriminate).
    subst ttl. apply Hsum.
    + reflexivity.
    + split; vm_compute; [discriminate | reflexivity].
  - destruct (C3_Set_contract fresh_cache t0 t0 "k" (Some "v") (2 ^ 63 - 1))
      as (ttl & expiration & _ & Hgiven & _ & _ & Hwrap & _ & Hkey & _).
    rewrite Hkey. f_equal. f_equal.
    assert (Httl : ttl = 2 ^ 63 - 1) by (apply Hgiven; vm_compute; discriminate).
    subst ttl. apply Hwrap.
    + reflexivity.
    + split; vm_compute; [discriminate | reflexivity].
    + reflexivity.
    + vm_compute; discriminate.
  - destruct (C3_Set_contract fresh_cache t0 t0 "k" (Some "v") 0)
      as (ttl & expiration & Hzero & _ & _ & _ & _ & Hnever & Hkey & _).
    rewrite Hkey. f_equal. f_equal.
    assert (Httl : ttl = 0) by (apply Hzero; reflexivity).
    subst ttl. apply Hnever. vm_compute; discriminate.
Defined.

Lemma C4_nonpositive_Expiration_never_expired_witness :
  (Get (t0 + 60 * ms) "forever" two_entries).1 = (Some "w", None) ∧
  (Expire (t0 + 60 * ms) "forever" two_entries).1 = (false, None) ∧
  ("forever" ∉ (expiredKeys (λ _, t0 + 60 * ms) two_entries).1) ∧
  (∀ order, order ≡ₚ map_to_list (m (cache two_entries)) →
     "forever" ∉ expiredKeys_range (λ _, t0 + 60 * ms) order []) ∧
  m (cache (GC_iteration (λ _, t0 + 60 * ms) two_entries).2) !! "forever"
    = Some entry_forever.
Proof.
  apply (C4_nonpositive_Expiration_never_expired two_entries "forever"
           entry_forever (t0 + 60 * ms) (λ _, t0 + 60 * ms)).
  - reflexivity.
  - vm_compute; discriminate.
Defined.

Lemma C5_sweep_step_witness :
  (GC_iteration (λ _, t0) fresh_cache = (Exited, fresh_cache) ∧
   step (mkProcess fresh_cache 1) (TimerFires (λ _, t0)) = mkProcess fresh_cache 0 ∧
   step (run (mkProcess fresh_cache 0) [CallSet t0 t0 "k" (Some "v") (50 * ms)])
        (TimerFires (λ _, t0 + 60 * ms))
   = run (mkProcess fresh_cache 0) [CallSet t0 t0 "k" (Some "v") (50 * ms)]) ∧
  (m (cache (GC_iteration (λ _, t0 + 60 * ms) two_entries).2) !! "k" = None ∧
   m (cache (GC_iteration (λ _, t0 + 60 * ms) two_entries).2) !! "forever"
     = Some entry_forever).
Proof.
  split.
  - destruct (C5_sweep_step fresh_cache (λ _, t0)) as [Hempty _].
    destruct (Hempty eq_refl) as (Hit & _ & Hstep & Hlater).
    split; [exact Hit | split; [exact Hstep |]].
    apply Hlater.
    intros Hin. apply elem_of_cons in Hin as [Hin | Hin]; [discriminate Hin |].
    apply elem_of_nil in Hin. exact Hin.
  - destruct (C5_sweep_step two_entries (λ _, t0 + 60 * ms)) as [_ Hsweep].
    assert (Hne : m (cache two_entries) ≠ ∅).
    { intros H. vm_compute in H. discriminate H. }
    destruct (Hsweep Hne) as (_ & _ & Hgone & Hkept & _).
    split.
    + apply (Hgone "k" entry_k); [reflexivity | split; reflexivity].
    + apply (Hkept "forever" entry_forever); [reflexivity |].
      intros [H _]. vm_compute in H. discriminate H.
Defined.

Lemma C6_Expire_contract_witness :
  (Expire t0 "absent" two_entries).1 = (false, Some ErrKeyNotFound) ∧
  ∃ b, (Expire (t0 + 60 * ms) "k" two_entries).1 = (b, None) ∧
       (b = true ↔ Expiration entry_k > 0 ∧ UnixNano (t0 + 60 * ms) > Expiration entry_k).
Proof.
  split.
  - apply (C6_Expire_contract two_entries t0 "absent"). reflexivity.
  - apply (C6_Expire_contract two_entries (t0 + 60 * ms) "k"). reflexivity.
Defined.

Lemma C7_GetMulti_contract_witness :
  (GetMulti (λ _, t0 + 10 * ms) ["k1"; "k"; "k3"] one_entry).1 !! 0%nat = Some None ∧
  (GetMulti (λ _, t0 + 10 * ms) ["k1"; "k"; "k3"] one_entry).1 !! 1%nat = Some (Some "v") ∧
  (GetMulti (λ _, t0 + 60 * ms) ["k1"; "k"; "k3"] one_entry).1 !! 1%nat = Some None.
Proof.
  split; [|split].
  - destruct (C7_GetMulti_contract one_entry (λ _, t0 + 10 * ms) ["k1"; "k"; "k3"])
      as [_ Hat].
    destruct (Hat 0%nat "k1" eq_refl) as (_ & Habsent & _).
    apply Habsent. reflexivity.
  - destruct (C7_GetMulti_contract one_entry (λ _, t0 + 10 * ms) ["k1"; "k"; "k3"])
      as [_ Hat].
    destruct (Hat 1%nat "k" eq_refl) as (_ & _ & _ & Hfresh).
    apply (Hfresh entry_k); [reflexivity |].
    intros [_ H]. vm_compute in H. discriminate H.
  - destruct (C7_GetMulti_contract one_entry (λ _, t0 + 60 * ms) ["k1"; "k"; "k3"])
      as [_ Hat].
    destruct (Hat 1%nat "k" eq_refl) as (_ & _ & Hstale & _).
    apply (Hstale entry_k); [reflexivity | split; reflexivity].
Defined.

Lemma C8_Delete_contract_witness :
  ((Delete "k" two_entries).1 = None ∧
   m (cache (Delete "k" two_entries).2) !! "k" = None ∧
   (IsExist "k" (Delete "k" two_entries).2).1 = false ∧
   (∀ now, (Get now "k" (Delete "k" two_entries).2).1 = (None, Some ErrKeyNotFound))) ∧
  Delete "absent" two_entries = (Some ErrKeyNotFound, two_entries) ∧
  m (cache (Delete "k" two_entries).2) !! "forever" = m (cache two_entries) !! "forever".
Proof.
  split; [|split].
  - apply (C8_Delete_contract two_entries "k" ) with (val := entry_k). reflexivity.
  - apply (C8_Delete_contract two_entries "absent"). reflexivity.
  - apply (C8_Delete_contract two_entries "k"). vm_compute; discriminate.
Defined.

(** * Further properties of the code *)

Section MoreLemmas.

Context {T : Type}.
Implicit Types (s : State T) (val : Value T) (value : any T).
Implicit Types (key k : string) (now created later : Time).

(** Writing back the map a state holds gives the state. *)
Lemma write_m_same s : (write_m (m (cache s)) s).2 = s.
Proof. by destruct s as [size [expiration interval mp]]. Qed.

Lemma Set_state now created key value (duration : Duration) s :
  (Set_ now created key value duration s).2 =
  (write_m (<[key :=
      mkValue value created
        (if (if duration =? 0 then defaultExpiration (cache s) else duration) >? 0
         then UnixNano (Add now (if duration =? 0 then defaultExpiration (cache s)
                                 else duration))
         else 0)]> (m (cache s))) s).2.
Proof. done. Qed.

Lemma Delete_state key s :
  (Delete key s).2 = (write_m (delete key (m (cache s))) s).2.
Proof.
  unfold Delete, bind, read_m. cbn [fst snd].
  destruct (m (cache s) !! key) as [val|] eqn:Hkey; [done|].
  rewrite delete_id by done. symmetry. apply write_m_same.
Qed.

Lemma clearItems_state (keys : list string) s :
  (clearItems keys s).2 =
  (write_m (foldl (λ acc k', delete k' acc) (m (cache s)) keys) s).2.
Proof. done. Qed.

Lemma GC_iteration_Exited (clock : string → Time) s :
  (GC_iteration clock s).1 = Exited →
  m (cache s) = ∅ ∧ (GC_iteration clock s).2 = s.
Proof.
  intros Hexit. destruct (decide (m (cache s) = ∅)) as [He|Hne].
  - by rewrite GC_iteration_empty.
  - destruct (GC_iteration_nonempty clock s Hne) as [Hw _]. congruence.
Qed.

(** One step of a process without sweeper, other than [StartGC], [FlushAll]
    and a [Delete] of [key]: the key keeps its entry unless the step is a
    [Set] on it, which stores a new one. *)
Lemma step_quiet (p : Process T) (e : event T) key :
  sweepers p = 0%nat →
  e ≠ CallStartGC → e ≠ CallFlushAll → e ≠ CallDelete key →
  sweepers (step p e) = 0%nat ∧
  (is_Some (m (cache (mem p)) !! key) →
     is_Some (m (cache (mem (step p e))) !! key)) ∧
  ((∀ now created value (duration : Duration),
       e ≠ CallSet now created key value duration) →
     m (cache (mem (step p e))) !! key = m (cache (mem p)) !! key).
Proof.
  intros Hp Hstart Hflush Hdel.
  destruct e as [now created k value duration|now k|clock keys|k|k|now k| | |clock];
    cbn [step mem sweepers]; try done.
  - split; [done|]. rewrite Set_state. unfold write_m. cbn [snd cache m].
    split.
    + intros Hsome. apply lookup_insert_is_Some.
      destruct (decide (k = key)); [by left | by right].
    + intros Hset. rewrite lookup_insert_ne; [done|].
      intros ->. by apply (Hset now created value duration).
  - by rewrite Get_state.
  - by rewrite GetMulti_result.
  - split; [done|]. rewrite Delete_state. unfold write_m. cbn [snd cache m].
    assert (k ≠ key) by (intros ->; done).
    rewrite lookup_delete_ne by done. done.
  - by rewrite IsExist_result.
  - by rewrite Expire_result.
  - by rewrite Hp.
Qed.

End MoreLemmas.

Section MoreProperties.

Context {T : Type}.
Implicit Types (s : State T) (val : Value T) (value : any T).
Implicit Types (key k : string) (now created later : Time).

(** X1.  A cache fresh from [NewCache] holds no key: [Get], [Expire] and
    [Delete] return ErrKeyNotFound and leave the state, [IsExist] answers
    false, [GetMulti] returns nil at every position.  It carries the
    configuration it was given, and has a sweeper exactly when the interval
    is positive. *)
Theorem X1_NewCache_fresh (size : Z) (expiration interval : Duration)
    key now (clock : nat → Time) (keys : list string) :
  Get now key (mem (NewCache size expiration interval))
    = ((None, Some ErrKeyNotFound), mem (@NewCache T size expiration interval)) ∧
  IsExist key (mem (NewCache size expiration interval))
    = (false, mem (@NewCache T size expiration interval)) ∧
  Expire now key (mem (NewCache size expiration interval))
    = ((false, Some ErrKeyNotFound), mem (@NewCache T size expiration interval)) ∧
  Delete key (mem (NewCache size expiration interval))
    = (Some ErrKeyNotFound, mem (@NewCache T size expiration interval)) ∧
  (GetMulti clock keys (mem (@NewCache T size expiration interval))).1
    = replicate (length keys) None ∧
  defaultExpiration (cache (mem (@NewCache T size expiration interval))) = expiration ∧
  cleanupInterval (cache (mem (@NewCache T size expiration interval))) = interval ∧
  defaultSize (mem (@NewCache T size expiration interval)) = size ∧
  (interval > 0 → sweepers (@NewCache T size expiration interval) = 1%nat) ∧
  (interval ≤ 0 → sweepers (@NewCache T size expiration interval) = 0%nat).
Proof.
  destruct (@NewCache_result T size expiration interval) as (Hm & He & Hi & Hs).
  assert (Hsize : defaultSize (mem (@NewCache T size expiration interval)) = size).
  { unfold NewCache. by destruct (interval >? 0). }
  set (p := @NewCache T size expiration interval) in *.
  assert (Hget : ∀ t k', Get t k' (mem p) = ((None, Some ErrKeyNotFound), mem p)).
  { intros t k'. by rewrite Get_result, Hm, lookup_empty. }
  split; [apply Hget|].
  split; [by rewrite IsExist_result, Hm, lookup_empty|].
  split; [by rewrite Expire_result, Hm, lookup_empty|].
  split.
  { unfold Delete, bind, read_m, ret. simpl. by rewrite Hm, lookup_empty. }
  split.
  { rewrite GetMulti_result. cbn [fst].
    clear -Hget. revert clock. induction keys as [|k' keys IH]; intros clock; [done|].
    rewrite imap_cons, Hget. simpl. f_equal. apply (IH (clock ∘ S)). }
  split; [done|]. split; [done|]. split; [done|].
  rewrite Hs. split; intros Hint.
  - by rewrite decide_True.
  - by rewrite decide_False by lia.
Qed.

(** X2.  Round trip of [Set] and [Get] under a positive ttl (the one given,
    or the default when zero is given), for clock readings from the epoch on
    and an expiry within [int64]: [Get] returns the value at every reading up
    to and including now + ttl, and ErrCacheIsOut at every reading past it. *)
Theorem X2_Set_Get_positive_ttl s now created later key value
    (duration ttl : Duration) :
  (duration ≠ 0 ∧ ttl = duration) ∨
    (duration = 0 ∧ ttl = defaultExpiration (cache s)) →
  0 < ttl → 0 ≤ now → now + ttl < 2 ^ 63 → - 2 ^ 63 ≤ later < 2 ^ 63 →
  (later ≤ now + ttl →
     (Get later key (Set_ now created key value duration s).2).1 = (value, None)) ∧
  (now + ttl < later →
     (Get later key (Set_ now created key value duration s).2).1
       = (None, Some ErrCacheIsOut)).
Proof.
  intros Httl Hpos Hnow Hfit Hlater.
  assert (Hkey : m (cache (Set_ now created key value duration s).2) !! key
                 = Some (mkValue value created (now + ttl))).
  { rewrite Set_state. unfold write_m. cbn [snd cache m].
    rewrite lookup_insert_eq. do 2 f_equal.
    destruct Httl as [[Hne ->]|[-> ->]].
    - rewrite (proj2 (Z.eqb_neq _ _) Hne).
      destruct (Z.gtb_spec duration 0); [|lia].
      unfold UnixNano, Add. apply int64_exact. lia.
    - rewrite Z.eqb_refl.
      destruct (Z.gtb_spec (defaultExpiration (cache s)) 0); [|lia].
      unfold UnixNano, Add. apply int64_exact. lia. }
  rewrite Get_result, Hkey.
  assert (Hl : UnixNano later = later) by (by apply int64_exact).
  split; intros Hcmp.
  - rewrite decide_False; [done|]. unfold expired. simpl. lia.
  - rewrite decide_True; [done|]. unfold expired. simpl. lia.
Qed.

(** X3.  A [Set] erases an earlier [Set] on the same key: value, creation
    time and expiry are those of the second call alone.  [Set]s on two
    different keys give the same state in either order. *)
Theorem X3_Set_overwrites_and_commutes s key k
    (now1 created1 now2 created2 : Time) (value1 value2 : any T)
    (duration1 duration2 : Duration) :
  (Set_ now2 created2 key value2 duration2
     (Set_ now1 created1 key value1 duration1 s).2).2
    = (Set_ now2 created2 key value2 duration2 s).2 ∧
  (key ≠ k →
   (Set_ now2 created2 k value2 duration2
      (Set_ now1 created1 key value1 duration1 s).2).2
     = (Set_ now1 created1 key value1 duration1
          (Set_ now2 created2 k value2 duration2 s).2).2).
Proof.
  split.
  - rewrite (Set_state now2 created2 key value2 duration2 (Set_ _ _ _ _ _ _).2).
    rewrite (Set_state now1). unfold write_m. cbn [snd cache m defaultExpiration
      cleanupInterval defaultSize].
    by rewrite insert_insert_eq.
  - intros Hne.
    rewrite (Set_state now2 created2 k value2 duration2 (Set_ _ _ _ _ _ _).2).
    rewrite (Set_state now1 created1 key value1 duration1 (Set_ _ _ _ _ _ _).2).
    rewrite (Set_state now1), (Set_state now2). unfold write_m.
    cbn [snd cache m defaultExpiration cleanupInterval defaultSize].
    by rewrite insert_insert_ne.
Qed.

(** X4.  [Delete] right after [Set] on the same key succeeds and leaves the
    map the cache had before the [Set], less the key; when the key was not
    in the cache, the two calls give back the state they started from. *)
Theorem X4_Set_then_Delete s now created key value (duration : Duration) :
  (Delete key (Set_ now created key value duration s).2).1 = None ∧
  m (cache (Delete key (Set_ now created key value duration s).2).2)
    = delete key (m (cache s)) ∧
  (m (cache s) !! key = None →
     (Delete key (Set_ now created key value duration s).2).2 = s).
Proof.
  assert (Hstate : (Delete key (Set_ now created key value duration s).2).2
                   = (write_m (delete key (m (cache s))) s).2).
  { rewrite Delete_state, Set_state. unfold write_m.
    cbn [snd cache m defaultExpiration cleanupInterval defaultSize].
    by rewrite delete_insert_eq. }
  split.
  - unfold Delete, bind, read_m, ret. cbn [fst snd].
    rewrite Set_state. unfold write_m at 1 2. cbn [snd cache m].
    by rewrite lookup_insert_eq.
  - rewrite Hstate. split; [done|].
    intros Habsent. by rewrite delete_id, write_m_same.
Qed.

(** X5.  A second [Delete] of a key returns ErrKeyNotFound and leaves the
    state the first one left, whether or not the first one found the key. *)
Theorem X5_Delete_twice s key :
  Delete key (Delete key s).2 = (Some ErrKeyNotFound, (Delete key s).2).
Proof.
  assert (Hgone : m (cache (Delete key s).2) !! key = None).
  { rewrite Delete_state. unfold write_m. cbn [snd cache m].
    apply lookup_delete_eq. }
  unfold Delete at 1. unfold bind, read_m, ret. cbn [fst snd].
  by rewrite Hgone.
Qed.

(** X6.  [clearItems] is [Delete] on each key of the list in turn, the
    errors dropped: keys that are not in the map, and keys listed twice, are
    passed over.  Afterwards no listed key is in the map and every other key
    has the entry it had. *)
Theorem X6_clearItems_is_Deletes s (keys : list string) :
  (clearItems keys s).2 = foldl (λ s' k', (Delete k' s').2) s keys ∧
  (∀ k, m (cache (clearItems keys s).2) !! k
        = if decide (k ∈ keys) then None else m (cache s) !! k) ∧
  defaultExpiration (cache (clearItems keys s).2) = defaultExpiration (cache s) ∧
  cleanupInterval (cache (clearItems keys s).2) = cleanupInterval (cache s).
Proof.
  split; [|split; [|done]].
  - revert s. induction keys as [|k0 keys IH]; intros s.
    + rewrite clearItems_state. simpl. apply write_m_same.
    + simpl. rewrite <- IH. rewrite !clearItems_state, Delete_state. done.
  - intros k. rewrite clearItems_state. unfold write_m. cbn [snd cache m].
    apply clearItems_lookup.
Qed.

(** X7.  [expiredKeys] does not change the state, lists no key twice, and
    lists a key exactly when [Expire], asked at the reading of the scan's
    visit to it, answers true: the scan of the sweep and the public test
    agree. *)
Theorem X7_expiredKeys_exact s (clock : string → Time) :
  (expiredKeys clock s).2 = s ∧
  NoDup (expiredKeys clock s).1 ∧
  (∀ k, k ∈ (expiredKeys clock s).1 ↔
        ∃ val, m (cache s) !! k = Some val ∧ expired (clock k) val) ∧
  (∀ k, k ∈ (expiredKeys clock s).1 ↔ (Expire (clock k) k s).1 = (true, None)).
Proof.
  assert (Hin : ∀ k, k ∈ (expiredKeys clock s).1 ↔
        ∃ val, m (cache s) !! k = Some val ∧ expired (clock k) val).
  { intros k. by apply elem_of_expiredKeys_range. }
  split; [done|]. split; [|split; [done|]].
  - unfold expiredKeys, bind, read_m, ret. cbn [fst snd].
    rewrite expiredKeys_range_result. simpl.
    apply (sublist_NoDup _ (map_to_list (m (cache s))).*1).
    + apply NoDup_fst_map_to_list.
    + apply fmap_sublist, sublist_filter.
  - intros k. rewrite Hin, Expire_result. cbn [fst].
    destruct (m (cache s) !! k) as [val|]; split.
    + intros [val' [[= <-] He]]. by rewrite bool_decide_eq_true_2.
    + intros [= He%bool_decide_eq_true]. eauto.
    + by intros [val' [? _]].
    + done.
Qed.

(** X8.  After a turn of the sweep no entry of the map is expired at the
    reading of its visit, so a second turn on the same readings finds no
    key to delete and leaves the state as the first one left it. *)
Theorem X8_sweep_leaves_no_expired s (clock : string → Time) :
  (∀ k val, m (cache (GC_iteration clock s).2) !! k = Some val →
            ¬ expired (clock k) val) ∧
  (expiredKeys clock (GC_iteration clock s).2).1 = [] ∧
  (GC_iteration clock (GC_iteration clock s).2).2 = (GC_iteration clock s).2.
Proof.
  assert (Hnone : ∀ k val, m (cache (GC_iteration clock s).2) !! k = Some val →
            ¬ expired (clock k) val).
  { intros k val. rewrite GC_iteration_lookup.
    destruct (m (cache s) !! k) as [val0|]; [|done].
    destruct (decide (expired (clock k) val0)) as [|Hfresh]; [done|].
    by intros [= <-]. }
  assert (Hkeys : (expiredKeys clock (GC_iteration clock s).2).1 = []).
  { apply elem_of_nil_inv. intros k Hk.
    apply (elem_of_expiredKeys_range clock _ (m (cache (GC_iteration clock s).2)))
      in Hk as [val [Hval He]]; [|done].
    by apply (Hnone k val). }
  split; [done|]. split; [done|].
  set (s' := (GC_iteration clock s).2) in *.
  unfold GC_iteration at 1. unfold bind, read_m, ret. cbn [fst snd].
  destruct (size (m (cache s')) =? 0)%nat; [done|].
  cbn [fst snd]. unfold expiredKeys, bind, read_m, ret in *. cbn [fst snd] in *.
  by rewrite Hkeys.
Qed.

(** X9.  [Expire] and [Get] agree at one clock reading: [Expire] answers
    true exactly when [Get] returns ErrCacheIsOut, it returns ErrKeyNotFound
    exactly when [Get] does, and it answers false with a nil error exactly
    when [Get] returns a value with a nil error. *)
Theorem X9_Expire_agrees_with_Get s now key :
  ((Expire now key s).1 = (true, None) ↔
     (Get now key s).1 = (None, Some ErrCacheIsOut)) ∧
  ((Expire now key s).1 = (false, Some ErrKeyNotFound) ↔
     (Get now key s).1 = (None, Some ErrKeyNotFound)) ∧
  ((Expire now key s).1 = (false, None) ↔
     ∃ value, (Get now key s).1 = (value, None)).
Proof.
  rewrite Expire_result, Get_result. cbn [fst].
  destruct (m (cache s) !! key) as [val|].
  - destruct (decide (expired now val)) as [He|He].
    + rewrite bool_decide_eq_true_2 by done.
      split; [done|]. split; [done|]. split; [done|]. by intros [value ?].
    + rewrite bool_decide_eq_false_2 by done.
      split; [done|]. split; [done|]. split; [eauto|done].
  - split; [done|]. split; [done|]. split; [done|]. by intros [value ?].
Qed.

(** X10.  What a turn of the sweep does to [Get].  On a key that was not
    expired at the reading of its visit [Get] answers as before the sweep;
    on a key that was, [Get] now returns ErrKeyNotFound.  At any reading not
    before that of the visit the value [Get] returns is the one it returned
    before the sweep, so the results of [GetMulti] do not show that a sweep
    took place. *)
Theorem X10_sweep_and_Get s (clock : string → Time) now key :
  ((∀ val, m (cache s) !! key = Some val → ¬ expired (clock key) val) →
     (Get now key (GC_iteration clock s).2).1 = (Get now key s).1) ∧
  (∀ val, m (cache s) !! key = Some val → expired (clock key) val →
     (Get now key (GC_iteration clock s).2).1 = (None, Some ErrKeyNotFound)) ∧
  (UnixNano (clock key) ≤ UnixNano now →
     (Get now key (GC_iteration clock s).2).1.1 = (Get now key s).1.1).
Proof.
  rewrite !Get_result. cbn [fst]. rewrite GC_iteration_lookup.
  destruct (m (cache s) !! key) as [val|]; [|done].
  destruct (decide (expired (clock key) val)) as [He|He].
  - split; [intros Hfresh; by destruct (Hfresh val)|].
    split; [done|].
    intros Hle. rewrite decide_True; [done|].
    destruct He as [He1 He2]. split; [done|lia].
  - split; [done|]. split; [|done].
    by intros val' [= <-] He'.
Qed.

(** X11.  [GC] returns only on an empty map: when the loop has returned, the
    map of the state it leaves is empty. *)
Theorem X11_GC_returns_on_empty_map s (firings : list (string → Time)) :
  (GC firings s).1 = Exited → m (cache (GC firings s).2) = ∅.
Proof.
  revert s. induction firings as [|clock rest IH]; intros s; [done|].
  rewrite GC_unfold.
  destruct (GC_iteration clock s).1 eqn:Hg.
  - apply IH.
  - intros _. cbn [snd].
    by destruct (GC_iteration_Exited clock s Hg) as [He ->].
Qed.

(** X12.  While the map holds an entry that never expires ([Expiration] zero
    or negative), [GC] does not return, however many times its timer fires,
    and the entry stays. *)
Theorem X12_GC_runs_while_entry_never_expires s (firings : list (string → Time))
    key val :
  m (cache s) !! key = Some val → Expiration val ≤ 0 →
  (GC firings s).1 = Waiting ∧
  m (cache (GC firings s).2) !! key = Some val.
Proof.
  intros Hkey Hexp. split; [|by apply GC_keeps_unexpiring].
  revert s Hkey. induction firings as [|clock rest IH]; intros s Hkey; [done|].
  rewrite GC_unfold.
  destruct (GC_iteration clock s).1 eqn:Hg.
  - apply IH. rewrite GC_iteration_lookup, Hkey.
    rewrite decide_False; [done|]. unfold expired. lia.
  - destruct (GC_iteration_Exited clock s Hg) as [He _].
    by rewrite He, lookup_empty in Hkey.
Qed.

(** X13.  [GC] only removes: after any number of turns every entry of the map
    is an entry the map had, unchanged, and [defaultExpiration],
    [cleanupInterval] and [defaultSize] are as they were. *)
Theorem X13_GC_only_removes s (firings : list (string → Time)) :
  m (cache (GC firings s).2) ⊆ m (cache s) ∧
  defaultExpiration (cache (GC firings s).2) = defaultExpiration (cache s) ∧
  cleanupInterval (cache (GC firings s).2) = cleanupInterval (cache s) ∧
  defaultSize (GC firings s).2 = defaultSize s.
Proof.
  revert s. induction firings as [|clock rest IH]; intros s; [done|].
  assert (Hsub : m (cache (GC_iteration clock s).2) ⊆ m (cache s)).
  { apply map_subseteq_spec. intros k val. rewrite GC_iteration_lookup.
    destruct (m (cache s) !! k) as [val0|]; [|done].
    by destruct (decide (expired (clock k) val0)). }
  destruct (GC_iteration_config clock s) as (He & Hi & Hs).
  rewrite GC_unfold. destruct (GC_iteration clock s).1; [|done].
  destruct (IH (GC_iteration clock s).2) as (Hsub' & He' & Hi' & Hs').
  split; [by etrans|]. split; [congruence|]. split; congruence.
Qed.

(** X14.  [GetMulti] on a concatenation is the concatenation of the results,
    the second list looked up at the readings that follow those of the
    first.  On the empty list it returns the empty list, on one key the value
    [Get] returns for it. *)
Theorem X14_GetMulti_app s (clock : nat → Time) (keys1 keys2 : list string) :
  (GetMulti clock (keys1 ++ keys2) s).1
    = (GetMulti clock keys1 s).1
      ++ (GetMulti (λ j, clock (length keys1 + j)%nat) keys2 s).1 ∧
  (GetMulti clock [] s).1 = [] ∧
  (∀ key, (GetMulti clock [key] s).1 = [(Get (clock 0%nat) key s).1.1]).
Proof.
  rewrite !GetMulti_result. cbn [fst].
  split; [by rewrite imap_app|]. split; [done|].
  intros key. by rewrite GetMulti_result.
Qed.

(** X15.  A positive ttl that takes the expiry past the last nanosecond of
    [int64] (the year 2262) stores a negative [Expiration], the sum less
    2^64: the entry never expires, [Get] returns the value and [Expire]
    answers false at every clock reading. *)
Theorem X15_Set_ttl_past_int64_never_expires s now created later key value
    (duration : Duration) :
  0 < duration < 2 ^ 63 → - 2 ^ 63 ≤ now < 2 ^ 63 → 2 ^ 63 ≤ now + duration →
  m (cache (Set_ now created key value duration s).2) !! key
    = Some (mkValue value created (now + duration - 2 ^ 64)) ∧
  now + duration - 2 ^ 64 < 0 ∧
  (Get later key (Set_ now created key value duration s).2).1 = (value, None) ∧
  (Expire later key (Set_ now created key value duration s).2).1 = (false, None).
Proof.
  intros Hd Hnow Hover.
  destruct (UnixNano_Add_overflow now duration Hnow Hd Hover) as [Hwrap Hneg].
  assert (Hkey : m (cache (Set_ now created key value duration s).2) !! key
    = Some (mkValue value created (now + duration - 2 ^ 64))).
  { rewrite Set_state. unfold write_m. cbn [snd cache m].
    rewrite lookup_insert_eq. do 2 f_equal.
    rewrite (proj2 (Z.eqb_neq duration 0)) by lia.
    destruct (Z.gtb_spec duration 0); [done|lia]. }
  assert (Hfresh : ¬ expired later (mkValue value created (now + duration - 2 ^ 64))).
  { intros [Hpos _]. simpl in Hpos. lia. }
  split; [done|]. split; [lia|].
  rewrite Get_result, Expire_result, Hkey. cbn [fst].
  by rewrite decide_False, bool_decide_eq_false_2.
Qed.

(** X16.  In a process without sweeper, under any calls other than
    [StartGC], [FlushAll] and a [Delete] of the key, and under any timer
    firings, a key that is in the map stays in the map, whatever its expiry:
    nothing but the sweep, [Delete] and [FlushAll] removes an entry.  With no
    [Set] on the key among the calls, the entry is the one it was. *)
Theorem X16_no_sweeper_no_removal (p : Process T) (evs : list (event T)) key :
  sweepers p = 0%nat →
  Forall (λ e, e ≠ CallStartGC ∧ e ≠ CallFlushAll ∧ e ≠ CallDelete key) evs →
  sweepers (run p evs) = 0%nat ∧
  (is_Some (m (cache (mem p)) !! key) →
     is_Some (m (cache (mem (run p evs))) !! key)) ∧
  (Forall (λ e, ∀ now created value (duration : Duration),
             e ≠ CallSet now created key value duration) evs →
     m (cache (mem (run p evs))) !! key = m (cache (mem p)) !! key).
Proof.
  revert p. induction evs as [|e evs IH]; intros p Hp Hevs; [done|].
  apply Forall_cons in Hevs as [(Hstart & Hflush & Hdel) Hevs].
  destruct (step_quiet p e key Hp Hstart Hflush Hdel) as (Hp' & Hsome & Hsame).
  destruct (IH (step p e) Hp' Hevs) as (Hrun & Hsome' & Hsame').
  cbn [run foldl]. fold (run (step p e) evs).
  split; [done|]. split; [by intros ?; apply Hsome', Hsome|].
  intros [Hset Hsets]%Forall_cons. rewrite Hsame' by done. by apply Hsame.
Qed.

(** X17.  The life of the sweeper of a cache built with a positive interval,
    on one entry with a positive ttl.  The timer firing after the expiry
    removes the entry and the sweeper goes on; the next firing finds the map
    empty and the sweeper returns; from then on, as long as [StartGC] is not
    called, the process has no sweeper. *)
Theorem X17_sweeper_lifecycle (size : Z) (expiration interval : Duration)
    now created key value (duration ttl : Duration)
    (clock1 clock2 : string → Time) :
  interval > 0 →
  (duration ≠ 0 ∧ ttl = duration) ∨ (duration = 0 ∧ ttl = expiration) →
  0 < ttl → 0 ≤ now → now + ttl < 2 ^ 63 →
  now + ttl < UnixNano (clock1 key) →
  sweepers (run (@NewCache T size expiration interval)
              [CallSet now created key value duration; TimerFires clock1]) = 1%nat ∧
  m (cache (mem (run (@NewCache T size expiration interval)
              [CallSet now created key value duration; TimerFires clock1]))) = ∅ ∧
  sweepers (run (@NewCache T size expiration interval)
              [CallSet now created key value duration; TimerFires clock1;
               TimerFires clock2]) = 0%nat ∧
  (∀ evs, CallStartGC ∉ evs →
     sweepers (run (@NewCache T size expiration interval)
                 ([CallSet now created key value duration; TimerFires clock1;
                   TimerFires clock2] ++ evs)) = 0%nat).
Proof.
  intros Hint Httl Hpos Hnow Hfit Hpast.
  assert (Hnew : @NewCache T size expiration interval
                 = mkProcess (mkState size (mkCache expiration interval ∅)) 1).
  { unfold NewCache. by destruct (Z.gtb_spec interval 0); [|lia]. }
  rewrite Hnew.
  set (s0 := mkState size (mkCache expiration interval (∅ : gmap string (Value T)))).
  set (s1 := (Set_ now created key value duration s0).2).
  assert (Hs1 : m (cache s1) = <[key := mkValue value created (now + ttl)]> ∅).
  { unfold s1. rewrite Set_state. unfold write_m. cbn [snd cache m s0 defaultExpiration].
    do 3 f_equal.
    destruct Httl as [[Hne ->]|[-> ->]].
    - rewrite (proj2 (Z.eqb_neq _ _) Hne).
      destruct (Z.gtb_spec duration 0); [|lia].
      unfold UnixNano, Add. apply int64_exact. lia.
    - rewrite Z.eqb_refl.
      destruct (Z.gtb_spec expiration 0); [|lia].
      unfold UnixNano, Add. apply int64_exact. lia. }
  assert (Hne1 : m (cache s1) ≠ ∅) by (rewrite Hs1; apply insert_non_empty).
  destruct (GC_iteration_nonempty clock1 s1 Hne1) as (Hw & _).
  assert (Hs2 : m (cache (GC_iteration clock1 s1).2) = ∅).
  { apply map_empty. intros k. rewrite GC_iteration_lookup, Hs1.
    destruct (decide (k = key)) as [->|Hk].
    - rewrite lookup_insert_eq. rewrite decide_True; [done|].
      split; simpl; lia.
    - by rewrite lookup_insert_ne, lookup_empty. }
  assert (Hrun1 : run (mkProcess s0 1)
                    [CallSet now created key value duration; TimerFires clock1]
                  = mkProcess (GC_iteration clock1 s1).2 1).
  { cbn [run foldl step mem sweepers]. fold s1. by rewrite Hw. }
  assert (Hrun2 : run (mkProcess s0 1)
                    [CallSet now created key value duration; TimerFires clock1;
                     TimerFires clock2]
                  = mkProcess (GC_iteration clock1 s1).2 0).
  { change [CallSet now created key value duration; TimerFires clock1;
            TimerFires clock2]
      with ([CallSet now created key value duration; TimerFires clock1]
            ++ [TimerFires clock2]).
    unfold run in *. rewrite foldl_app, Hrun1.
    cbn [foldl step mem sweepers].
    by rewrite (GC_iteration_empty clock2 _ Hs2). }
  rewrite Hrun1. split; [done|]. split; [done|].
  rewrite Hrun2. split; [done|].
  intros evs Hevs. unfold run in *. rewrite foldl_app, Hrun2.
  by apply run_no_sweeper.
Qed.

(** X18.  The length of the map, which the sweeper tests.  [Set] adds one
    entry for a new key and none for a key the map holds; a [Delete] that
    finds its key removes one, a [Delete] that does not removes none;
    [FlushAll] leaves none.  Right after a [Set] the map is not empty, so a
    timer firing then does not end the sweeper. *)
Theorem X18_len_accounting s now created key value (duration : Duration)
    (clock : string → Time) :
  (m (cache s) !! key = None →
     size (m (cache (Set_ now created key value duration s).2))
       = S (size (m (cache s))) ∧
     size (m (cache (Delete key s).2)) = size (m (cache s))) ∧
  (is_Some (m (cache s) !! key) →
     size (m (cache (Set_ now created key value duration s).2))
       = size (m (cache s)) ∧
     S (size (m (cache (Delete key s).2))) = size (m (cache s))) ∧
  size (m (cache (FlushAll s).2)) = 0%nat ∧
  (GC_iteration clock (Set_ now created key value duration s).2).1 = Waiting.
Proof.
  rewrite Set_state, Delete_state. unfold write_m. cbn [snd cache m].
  split; [|split; [|split; [done|]]].
  - intros Hkey. by rewrite map_size_insert_None, map_size_delete_None.
  - intros Hkey. rewrite map_size_insert_Some, map_size_delete_Some by done.
    split; [done|]. destruct Hkey as [val Hkey].
    assert (size (m (cache s)) ≠ 0%nat); [|lia].
    apply map_size_non_empty_iff. intros He. by rewrite He, lookup_empty in Hkey.
  - apply GC_iteration_nonempty. cbn [cache m]. apply insert_non_empty.
Qed.

(** X19.  [FlushAll] puts the cache back in the state [NewCache] builds from
    the same configuration, and a second [FlushAll] changes nothing more.
    The sweeper finds the map empty at its next timer firing and returns: in
    a process with one sweeper, a [FlushAll] followed by a firing leaves no
    sweeper. *)
Theorem X19_FlushAll_resets (p : Process T) (clock : string → Time) :
  (FlushAll (mem p)).2
    = mem (NewCache (defaultSize (mem p)) (defaultExpiration (cache (mem p)))
             (cleanupInterval (cache (mem p)))) ∧
  (FlushAll (FlushAll (mem p)).2).2 = (FlushAll (mem p)).2 ∧
  GC_iteration clock (FlushAll (mem p)).2 = (Exited, (FlushAll (mem p)).2) ∧
  (sweepers p = 1%nat →
     run p [CallFlushAll; TimerFires clock] = mkProcess (FlushAll (mem p)).2 0).
Proof.
  split; [|split; [done|split]].
  - unfold NewCache. by destruct (_ >? 0).
  - by apply GC_iteration_empty.
  - intros Hp. cbn [run foldl step mem sweepers]. rewrite Hp.
    by rewrite GC_iteration_empty.
Qed.

End MoreProperties.

(** * The further properties on the concrete cache *)

Lemma X1_NewCache_fresh_witness :
  sweepers (@NewCache string 8 0 (30 * ms)) = 1%nat ∧
  sweepers (@NewCache string 8 0 0) = 0%nat ∧
  Get t0 "k" fresh_cache = ((None, Some ErrKeyNotFound), fresh_cache).
Proof.
  split; [|split].
  - apply (X1_NewCache_fresh 8 0 (30 * ms) "k" t0 (λ _, t0) []). reflexivity.
  - apply (X1_NewCache_fresh 8 0 0 "k" t0 (λ _, t0) []). vm_compute; discriminate.
  - apply (X1_NewCache_fresh 8 0 0 "k" t0 (λ _, t0) []).
Defined.

Lemma X2_Set_Get_positive_ttl_witness :
  (Get (t0 + 10 * ms) "k" one_entry).1 = (Some "v", None) ∧
  (Get (t0 + 60 * ms) "k" one_entry).1 = (None, Some ErrCacheIsOut).
Proof.
  split.
  - apply (X2_Set_Get_positive_ttl fresh_cache t0 t0 (t0 + 10 * ms) "k" (Some "v")
             (50 * ms) (50 * ms)).
    + left. split; [vm_compute; discriminate | reflexivity].
    + reflexivity.
    + vm_compute; discriminate.
    + reflexivity.
    + split; [vm_compute; discriminate | reflexivity].
    + vm_compute; discriminate.
  - apply (X2_Set_Get_positive_ttl fresh_cache t0 t0 (t0 + 60 * ms) "k" (Some "v")
             (50 * ms) (50 * ms)).
    + left. split; [vm_compute; discriminate | reflexivity].
    + reflexivity.
    + vm_compute; discriminate.
    + reflexivity.
    + split; [vm_compute; discriminate | reflexivity].
    + reflexivity.
Defined.

Lemma X3_Set_overwrites_and_commutes_witness :
  (Set_ t0 t0 "forever" (Some "w") (-1) one_entry).2
    = (Set_ t0 t0 "k" (Some "v") (50 * ms)
         (Set_ t0 t0 "forever" (Some "w") (-1) fresh_cache).2).2.
Proof.
  apply (X3_Set_overwrites_and_commutes fresh_cache "k" "forever" t0 t0 t0 t0
           (Some "v") (Some "w") (50 * ms) (-1)).
  discriminate.
Defined.

Lemma X4_Set_then_Delete_witness :
  (Delete "k" one_entry).2 = fresh_cache.
Proof.
  apply (X4_Set_then_Delete fresh_cache t0 t0 "k" (Some "v") (50 * ms)).
  reflexivity.
Defined.

Lemma X8_sweep_leaves_no_expired_witness :
  ¬ expired (t0 + 60 * ms) entry_forever.
Proof.
  apply (proj1 (X8_sweep_leaves_no_expired two_entries (λ _, t0 + 60 * ms))
           "forever" entry_forever).
  reflexivity.
Defined.

Lemma X10_sweep_and_Get_witness :
  (Get (t0 + 60 * ms) "k" (GC_iteration (λ _, t0 + 60 * ms) two_entries).2).1
    = (None, Some ErrKeyNotFound) ∧
  (Get (t0 + 90 * ms) "forever" (GC_iteration (λ _, t0 + 60 * ms) two_entries).2).1
    = (Get (t0 + 90 * ms) "forever" two_entries).1 ∧
  (Get (t0 + 90 * ms) "k" (GC_iteration (λ _, t0 + 60 * ms) two_entries).2).1.1
    = (Get (t0 + 90 * ms) "k" two_entries).1.1.
Proof.
  split; [|split].
  - apply (proj1 (proj2 (X10_sweep_and_Get two_entries (λ _, t0 + 60 * ms)
                           (t0 + 60 * ms) "k")) entry_k).
    + reflexivity.
    + split; reflexivity.
  - apply (proj1 (X10_sweep_and_Get two_entries (λ _, t0 + 60 * ms)
                    (t0 + 90 * ms) "forever")).
    intros val Hval [Hpos _].
    assert (Hv : Some val = Some entry_forever) by (rewrite <- Hval; reflexivity).
    injection Hv as Hv. rewrite Hv in Hpos. vm_compute in Hpos. discriminate Hpos.
  - apply (proj2 (proj2 (X10_sweep_and_Get two_entries (λ _, t0 + 60 * ms)
                           (t0 + 90 * ms) "k"))).
    vm_compute; discriminate.
Defined.

Lemma X11_GC_returns_on_empty_map_witness :
  m (cache (GC [λ _, t0 + 60 * ms; λ _, t0 + 90 * ms] one_entry).2) = ∅.
Proof.
  apply (X11_GC_returns_on_empty_map one_entry [λ _, t0 + 60 * ms; λ _, t0 + 90 * ms]).
  reflexivity.
Defined.

Lemma X12_GC_runs_while_entry_never_expires_witness :
  (GC [λ _, t0 + 60 * ms; λ _, t0 + 90 * ms; λ _, t0 + 120 * ms] two_entries).1
    = Waiting ∧
  m (cache (GC [λ _, t0 + 60 * ms; λ _, t0 + 90 * ms; λ _, t0 + 120 * ms]
              two_entries).2) !! "forever" = Some entry_forever.
Proof.
  apply (X12_GC_runs_while_entry_never_expires two_entries
           [λ _, t0 + 60 * ms; λ _, t0 + 90 * ms; λ _, t0 + 120 * ms]
           "forever" entry_forever).
  - reflexivity.
  - vm_compute; discriminate.
Defined.

Lemma X15_Set_ttl_past_int64_never_expires_witness :
  (Get (t0 + 60 * ms) "k"
     (Set_ t0 t0 "k" (Some "v") (2 ^ 63 - 1) fresh_cache).2).1 = (Some "v", None).
Proof.
  apply (X15_Set_ttl_past_int64_never_expires fresh_cache t0 t0 (t0 + 60 * ms) "k"
           (Some "v") (2 ^ 63 - 1)).
  - split; reflexivity.
  - split; [vm_compute; discriminate | reflexivity].
  - vm_compute; discriminate.
Defined.

Lemma X16_no_sweeper_no_removal_witness :
  m (cache (mem (run (mkProcess one_entry 0)
       [TimerFires (λ _, t0 + 60 * ms); CallGet (t0 + 60 * ms) "k";
        CallSet t0 t0 "other" None 0; CallDelete "other";
        TimerFires (λ _, t0 + 90 * ms)]))) !! "k"
  = Some entry_k.
Proof.
  apply (X16_no_sweeper_no_removal (mkProcess one_entry 0)
       [TimerFires (λ _, t0 + 60 * ms); CallGet (t0 + 60 * ms) "k";
        CallSet t0 t0 "other" None 0; CallDelete "other";
        TimerFires (λ _, t0 + 90 * ms)] "k").
  - reflexivity.
  - repeat (apply Forall_cons; split; [repeat split; discriminate|]).
    apply Forall_nil. exact I.
  - repeat (apply Forall_cons; split; [intros; discriminate|]).
    apply Forall_nil. exact I.
Defined.

Lemma X17_sweeper_lifecycle_witness :
  sweepers (run (@NewCache string 8 0 (30 * ms))
              [CallSet t0 t0 "k" (Some "v") (10 * ms);
               TimerFires (λ _, t0 + 30 * ms)]) = 1%nat ∧
  m (cache (mem (run (@NewCache string 8 0 (30 * ms))
              [CallSet t0 t0 "k" (Some "v") (10 * ms);
               TimerFires (λ _, t0 + 30 * ms)]))) = ∅ ∧
  sweepers (run (@NewCache string 8 0 (30 * ms))
              [CallSet t0 t0 "k" (Some "v") (10 * ms);
               TimerFires (λ _, t0 + 30 * ms);
               TimerFires (λ _, t0 + 60 * ms)]) = 0%nat.
Proof.
  destruct (X17_sweeper_lifecycle 8 0 (30 * ms) t0 t0 "k" (Some "v")
              (10 * ms) (10 * ms) (λ _, t0 + 30 * ms) (λ _, t0 + 60 * ms))
    as (Hone & Hempty & Hnone & _).
  - reflexivity.
  - left. split; [vm_compute; discriminate | reflexivity].
  - reflexivity.
  - vm_compute; discriminate.
  - reflexivity.
  - reflexivity.
  - split; [exact Hone | split; [exact Hempty | exact Hnone]].
Defined.

Lemma X18_len_accounting_witness :
  size (m (cache (Set_ t0 t0 "new" (Some "n") 0 one_entry).2)) = 2%nat ∧
  size (m (cache (Set_ t0 t0 "k" (Some "n") 0 one_entry).2)) = 1%nat.
Proof.
  split.
  - change 2%nat with (S (size (m (cache one_entry)))).
    apply (X18_len_accounting one_entry t0 t0 "new" (Some "n") 0 (λ _, t0)).
    reflexivity.
  - change 1%nat with (size (m (cache one_entry))).
    apply (X18_len_accounting one_entry t0 t0 "k" (Some "n") 0 (λ _, t0)).
    exists entry_k. reflexivity.
Defined.

Lemma X19_FlushAll_resets_witness :
  run (mkProcess two_entries 1) [CallFlushAll; TimerFires (λ _, t0)]
  = mkProcess (FlushAll two_entries).2 0.
Proof.
  apply (X19_FlushAll_resets (mkProcess two_entries 1) (λ _, t0)).
  reflexivity.
Defined.
